(** * kml-path-lifter: the interval cut solver [lift] and the axis adjustment
    of [process_kml]

    Shallow embedding of [src/kml-path-lifter.py].

    Values ([mpf] in the source) are embedded as exact rationals [Q]; two
    rationals denote the same value when they are [Qeq] ([==]), which is the
    equality every comparison of the program observes.  The rounding of
    [mpf] to its working precision and its infinities and NaN are not
    modelled.  Python exceptions are explicit: a computation yields
    [Return v] or [Raise e]. *)

From Stdlib Require Import QArith Qround Qabs Lqa ZArith Lia List Bool.
Import ListNotations.
Local Open Scope Q_scope.

(** ** Exceptions *)

Inductive exn : Type :=
| ZeroDivisionError
| TypeError.

Inductive result (A : Type) : Type :=
| Return (a : A)
| Raise (e : exn).
Arguments Return {A} a.
Arguments Raise {A} e.

Definition bind {A B : Type} (c : result A) (k : A -> result B) : result B :=
  match c with
  | Return a => k a
  | Raise e => Raise e
  end.

Notation "x <- c ;; k" := (bind c (fun x => k))
  (at level 61, c at next level, right associativity).

(** ** Comparisons and arithmetic of the source *)

(** [a < b] as a test. *)
Definition Qltb (a b : Q) : bool := negb (Qle_bool b a).

(** Floored remainder: the value of [x % m] when [m] is not zero. *)
Definition Qmod (x m : Q) : Q := x - m * inject_Z (Qfloor (x / m)).

(** [x % m]; the remainder takes the sign of [m], and [m = 0] raises. *)
Definition pymod (x m : Q) : result Q :=
  if Qeq_bool m 0 then Raise ZeroDivisionError else Return (Qmod x m).

(** [max(a, b)]: the first argument unless the second is strictly larger. *)
Definition pymax (a b : Q) : Q := if Qltb a b then b else a.

(** [min(a, b)]: the first argument unless the second is strictly smaller. *)
Definition pymin (a b : Q) : Q := if Qltb b a then b else a.

Definition minn (a b : option Q) : option Q :=
  match a, b with
  | None, _ => b
  | _, None => a
  | Some x, Some y => Some (pymin x y)
  end.

Definition maxn (a b : option Q) : option Q :=
  match a, b with
  | None, _ => b
  | _, None => a
  | Some x, Some y => Some (pymax x y)
  end.

(** ** The solver *)

(** [zip(l, l[1:])]. *)
Definition arcs (l : list Q) : list (Q * Q) := combine l (tl l).

(** The variables of the first loop of [lift]. *)
Record bounds : Type := mkBounds {
  o0 : option Q;
  o1 : option Q;
  keep : list (Q * Q)
}.

Definition init : bounds := mkBounds None None [].

(** One iteration of [for x, y in arcs]. *)
Definition arc_step (m : Q) (s : bounds) (a : Q * Q) : result bounds :=
  let (x, y) := a in
  b <- pymod (x - y) m ;;
  f <- pymod (y - x) m ;;
  if Qltb b f then
    (* wants y < x *)
    if Qltb x y then
      Return (mkBounds (maxn (o0 s) (Some x)) (minn (o1 s) (Some y)) (keep s))
    else
      Return (mkBounds (o0 s) (o1 s) (keep s ++ [(y, x)]))
  else
    (* wants x < y *)
    if Qltb y x then
      Return (mkBounds (maxn (o0 s) (Some y)) (minn (o1 s) (Some x)) (keep s))
    else
      Return (mkBounds (o0 s) (o1 s) (keep s ++ [(x, y)])).

Fixpoint first_pass (m : Q) (s : bounds) (al : list (Q * Q)) : result bounds :=
  match al with
  | [] => Return s
  | a :: al' => s' <- arc_step m s a ;; first_pass m s' al'
  end.

(** [for x, y in keep: if x <= o0: o0 = max(o0, y)]. *)
Fixpoint widen (k : list (Q * Q)) (lo : Q) : Q :=
  match k with
  | [] => lo
  | (x, y) :: k' => widen k' (if Qle_bool x lo then pymax lo y else lo)
  end.

(** [for x, y in keep: if x > o0: o1 = min(o1, x)]. *)
Fixpoint tighten (k : list (Q * Q)) (lo hi : Q) : Q :=
  match k with
  | [] => hi
  | (x, y) :: k' => tighten k' lo (if Qltb lo x then pymin hi x else hi)
  end.

(** The part of [lift] after the first loop.  Comparing a number with
    [None] ([o0 >= o1] with [o1] unset) raises [TypeError]. *)
Definition finish (s : bounds) : result (option Q) :=
  match o0 s with
  | None => Return None
  | Some lo =>
      match o1 s with
      | None => Raise TypeError
      | Some hi =>
          if Qle_bool hi lo then Return None
          else
            let lo' := widen (keep s) lo in
            let hi' := tighten (keep s) lo' hi in
            if Qle_bool hi' lo' then Return None
            else Return (Some (lo' + (hi' - lo') / 2))
      end
  end.

Definition lift (l : list Q) (m : Q) : result (option Q) :=
  s <- first_pass m init (arcs l) ;;
  finish s.

(** ** Coordinates and the adjustment of a path *)

Record Coordinates : Type := mkCoordinates {
  longitude : Q;
  latitude : Q;
  z : Q
}.

Inductive axis : Type := Longitude | Latitude.

Definition field (ax : axis) (c : Coordinates) : Q :=
  match ax with
  | Longitude => longitude c
  | Latitude => latitude c
  end.

Definition set_field (ax : axis) (c : Coordinates) (v : Q) : Coordinates :=
  match ax with
  | Longitude => mkCoordinates v (latitude c) (z c)
  | Latitude => mkCoordinates (longitude c) v (z c)
  end.

Definition period (ax : axis) : Q :=
  match ax with
  | Longitude => 360
  | Latitude => 180
  end.

(** [if c.field < o: c.field += period]. *)
Definition shift_coord (ax : axis) (o : Q) (c : Coordinates) : Coordinates :=
  if Qltb (field ax c) o then set_field ax c (field ax c + period ax) else c.

(** One of the two blocks of [process_kml]: the list of coordinates and the
    flag [changed] before the block, and after it. *)
Definition adjust (ax : axis) (st : list Coordinates * bool)
  : result (list Coordinates * bool) :=
  let (l, changed) := st in
  o <- lift (map (field ax) l) (period ax) ;;
  match o with
  | Some o => Return (map (shift_coord ax o) l, true)
  | None => Return (l, changed)
  end.

(** The body of the loop of [process_kml] between parsing and printing. *)
Definition process_path (l : list Coordinates) : result (list Coordinates * bool) :=
  st <- adjust Longitude (l, false) ;;
  adjust Latitude st.

(** The same shift on a bare list of values. *)
Definition apply_cut (l : list Q) (m o : Q) : list Q :=
  map (fun v => if Qltb v o then v + m else v) l.

(** ** Reading of the first loop *)

(** The pair is on the branch "wants y < x". *)
Definition wants_descending (m x y : Q) : bool :=
  Qltb (Qmod (x - y) m) (Qmod (y - x) m).

(** The raw order of the pair contradicts the order its branch wants. *)
Definition violating (m x y : Q) : bool :=
  if wants_descending m x y then Qltb x y else Qltb y x.

(** The interval an arc contributes: a constraint when it is violating, a
    keep pair otherwise. *)
Definition interval (m x y : Q) : Q * Q :=
  if wants_descending m x y
  then (if Qltb x y then (x, y) else (y, x))
  else (if Qltb y x then (y, x) else (x, y)).

(** [o0] holds a value that is at least [lo]. *)
Definition lower_ok (s : bounds) (lo : Q) : Prop :=
  exists a, o0 s = Some a /\ lo <= a.

(** [o1] holds a value that is at most [hi]. *)
Definition upper_ok (s : bounds) (hi : Q) : Prop :=
  exists b, o1 s = Some b /\ b <= hi.

(** The bounds after the loops over the keep pairs. *)
Definition final_lo (s : bounds) (lo : Q) : Q := widen (keep s) lo.

Definition final_hi (s : bounds) (lo hi : Q) : Q :=
  tighten (keep s) (final_lo s lo) hi.

(** The two tests of [lift] that lead to [return None]. *)
Definition no_cut_condition (s : bounds) : Prop :=
  o0 s = None \/
  exists lo hi,
    o0 s = Some lo /\ o1 s = Some hi /\
    (hi <= lo \/ final_hi s lo hi <= final_lo s lo).

(** ** Definitions for the further properties *)

From Stdlib Require Import NArith String Ascii.
From Stdlib Require DecimalString.
Import List.
Import ListNotations.

(** The shift [apply_cut] maps over the list. *)
Definition shift (m o v : Q) : Q := if Qltb v o then v + m else v.



(** ** Text of a coordinates element *)

(** A Python [str]: the list of its code points. *)
Definition str : Type := list N.

(** A literal. *)
Definition lit (s : string) : str :=
  map N_of_ascii (list_ascii_of_string s).

Definition comma : N := 44%N.
Definition space : N := 32%N.

(** The code points [str.strip()] removes: those for which [str.isspace]
    holds. *)
Definition isspace (c : N) : bool :=
  ((9 <=? c) && (c <=? 13) || (28 <=? c) && (c <=? 32) ||
   (c =? 133) || (c =? 160) || (c =? 5760) ||
   (8192 <=? c) && (c <=? 8202) ||
   (c =? 8232) || (c =? 8233) || (c =? 8239) || (c =? 8287) ||
   (c =? 12288))%N.

Fixpoint lstrip (s : str) : str :=
  match s with
  | [] => []
  | c :: s' => if isspace c then lstrip s' else s
  end.

(** [s.strip()]. *)
Definition strip (s : str) : str := rev (lstrip (rev (lstrip s))).

(** [s.split(sep)] for a separator of one code point: the pieces between
    the occurrences of [sep], one more than there are occurrences. *)
Fixpoint split (sep : N) (s : str) : list str :=
  match s with
  | [] => [[]]
  | c :: s' =>
      if (c =? sep)%N then [] :: split sep s'
      else match split sep s' with
           | p :: ps => (c :: p) :: ps
           | [] => [[c]]
           end
  end.

(** [sep.join(pieces)]. *)
Fixpoint join (sep : str) (pieces : list str) : str :=
  match pieces with
  | [] => []
  | [p] => p
  | p :: ps => p ++ sep ++ join sep ps
  end.

(** Exceptions of the text layer: those of the solver, and whatever else
    the conversion of a field to a number raises. *)
Inductive pyexn : Type :=
| ValueError
| NameError
| IOError
| OfSolver (e : exn).

Inductive outcome (A : Type) : Type :=
| Done (a : A)
| Failed (e : pyexn).
Arguments Done {A} a.
Arguments Failed {A} e.

Definition obind {A B : Type} (c : outcome A) (k : A -> outcome B)
  : outcome B :=
  match c with
  | Done a => k a
  | Failed e => Failed e
  end.

Definition of_result {A : Type} (r : result A) : outcome A :=
  match r with
  | Return a => Done a
  | Raise e => Failed (OfSolver e)
  end.

(** A list comprehension whose element expression may raise: left to
    right, the first exception ends it. *)
Fixpoint comprehension {A B : Type} (f : A -> outcome B) (l : list A)
  : outcome (list B) :=
  match l with
  | [] => Done []
  | a :: l' =>
      obind (f a) (fun b =>
      obind (comprehension f l') (fun bs => Done (b :: bs)))
  end.

Section Text.

(** [mpf(s)] and [str(v)] (what ['%s' % v] prints) belong to mpmath. *)
Variable mpf : str -> outcome Q.
Variable show : Q -> str.

(** [Coordinates.fromstring]: the fields are converted first, then the
    constructor is called with them and wants exactly three. *)
Definition fromstring (coords : str) : outcome Coordinates :=
  obind (comprehension mpf (split comma coords)) (fun fields =>
  match fields with
  | [lon; lat; alt] => Done (mkCoordinates lon lat alt)
  | _ => Failed (OfSolver TypeError)
  end).

(** [Coordinates.tostring]: ['%s,%s,%s']. *)
Definition tostring (c : Coordinates) : str :=
  show (longitude c) ++ [comma] ++ show (latitude c) ++ [comma] ++ show (z c).

(** [text.strip().split(' ')] without its empty pieces. *)
Definition tokens (text : str) : list str :=
  filter (fun coords => (0 <? length coords)%nat) (split space (strip text)).

(** The list [l] of [process_kml]. *)
Definition parse_path (text : str) : outcome (list Coordinates) :=
  comprehension fromstring (tokens text).

(** The body of the loop of [process_kml] for one element that has a
    text: the text before, and after. *)
Definition process_text (text : str) : outcome str :=
  obind (parse_path text) (fun l =>
  obind (of_result (process_path l)) (fun r =>
  Done (if snd r then join [space] (map tostring (fst r)) else text))).

End Text.

(** A number prints to a text without blank and comma that converts back
    to it. *)
Definition prints_back (mpf : str -> outcome Q) (show : Q -> str) (v : Q)
  : Prop :=
  (forall c, In c (show v) -> isspace c = false /\ c <> comma) /\
  mpf (show v) = Done v.

Definition coordinates_print_back (mpf : str -> outcome Q) (show : Q -> str)
           (c : Coordinates) : Prop :=
  prints_back mpf show (longitude c) /\
  prints_back mpf show (latitude c) /\
  prints_back mpf show (z c).


(** ** The command line *)

(** [a == b] on [str]. *)
Fixpoint str_eqb (a b : str) : bool :=
  match a, b with
  | [], [] => true
  | x :: a', y :: b' => (x =? y)%N && str_eqb a' b'
  | _, _ => false
  end.

(** [s.endswith(suffix)]. *)
Definition endswith (s suffix : str) : bool :=
  (List.length suffix <=? List.length s)%nat &&
  str_eqb (skipn (List.length s - List.length suffix) s) suffix.

(** [infilename[:-4] + '-lifted.kml']. *)
Definition lifted_name (infilename : str) : str :=
  firstn (List.length infilename - 4) infilename ++ lit "-lifted.kml".

(** The files by name; [None] where there is none. *)
Definition files : Type := str -> option str.

Definition write_file (fs : files) (name content : str) : files :=
  fun n => if str_eqb n name then Some content else fs n.

Definition read_file (fs : files) (name : str) : outcome str :=
  match fs name with
  | Some content => Done content
  | None => Failed IOError
  end.

(** What the loop of the script acts on: the files, the lines printed, and
    its two variables, unbound at first. *)
Record world : Type := mkWorld {
  fs : files;
  stdout : list str;
  outfilename : option str;
  outkml : option str
}.

Section Main.

(** [process_kml] on the text of a document, and the member [doc.kml] of
    an archive given by its content. *)
Variable process_kml : str -> outcome str.
Variable kmz_doc : str -> outcome str.

(** The two branches on the file name: the variables after, or the
    exception. *)
Definition convert (w : world) (infilename : str)
  : outcome (option str * option str) :=
  if endswith infilename (lit ".kmz") then
    obind (read_file (fs w) infilename) (fun archive =>
    obind (kmz_doc archive) (fun doc =>
    obind (process_kml doc) (fun k =>
    Done (Some (lifted_name infilename), Some k))))
  else if endswith infilename (lit ".kml") then
    obind (read_file (fs w) infilename) (fun doc =>
    obind (process_kml doc) (fun k =>
    Done (Some (lifted_name infilename), Some k)))
  else Done (outfilename w, outkml w).

(** One iteration of [for infilename in sys.argv[1:]]: the world after it,
    and the exception that ended it, if any.  A use of an unbound variable
    raises [NameError]; opening a file for writing empties it and is taken
    to succeed.  An exception ends the script, so the two variables are
    left as they were in the world it yields. *)
Definition main_step (w : world) (infilename : str)
  : world * option pyexn :=
  let out1 := stdout w ++ [lit "Processing " ++ infilename ++ lit "..."] in
  match convert w infilename with
  | Failed e => (mkWorld (fs w) out1 (outfilename w) (outkml w), Some e)
  | Done (name, kml) =>
      match name with
      | None => (mkWorld (fs w) out1 name kml, Some NameError)
      | Some n =>
          let out2 := out1 ++ [lit "  writing " ++ n ++ lit "..."] in
          match kml with
          | None =>
              (mkWorld (write_file (fs w) n []) out2 name kml, Some NameError)
          | Some k =>
              (mkWorld (write_file (fs w) n k) out2 name kml, None)
          end
      end
  end.

Fixpoint main_loop (w : world) (argv : list str) : world * option pyexn :=
  match argv with
  | [] => (w, None)
  | infilename :: rest =>
      match main_step w infilename with
      | (w', Some e) => (w', Some e)
      | (w', None) => main_loop w' rest
      end
  end.

(** The script, started on the files [fs0] with the arguments [argv]. *)
Definition main (fs0 : files) (argv : list str) : world * option pyexn :=
  main_loop (mkWorld fs0 [] None None) argv.

End Main.

(** A file name the script handles. *)
Definition recognised (a : str) : Prop :=
  endswith a (lit ".kmz") = true \/ endswith a (lit ".kml") = true.

(** The name of the file to write always ends in [-lifted.kml]. *)
Definition named_lifted (w : world) : Prop :=
  forall name, outfilename w = Some name ->
    endswith name (lit "-lifted.kml") = true.

(** ** Sample parameters

    Stand-ins for [mpf] and [str] on unsigned decimal integers, and for
    [process_kml] and the reading of an archive, to run the definitions
    above on examples. *)

Definition sample_show (v : Q) : str :=
  lit (DecimalString.NilEmpty.string_of_uint (N.to_uint (Z.to_N (Qnum v)))).

Definition sample_mpf (s : str) : outcome Q :=
  match s with
  | [] => Failed ValueError
  | _ =>
      match DecimalString.NilEmpty.uint_of_string
              (string_of_list_ascii (map ascii_of_N s)) with
      | Some u => Done (inject_Z (Z.of_N (N.of_uint u)))
      | None => Failed ValueError
      end
  end.

Definition sample_process_kml (doc : str) : outcome str :=
  Done (lit "lifted:" ++ doc).

Definition sample_kmz_doc (archive : str) : outcome str := Done archive.

Definition sample_files : files :=
  fun n => if str_eqb n (lit "a.kml") then Some (lit "<kml/>") else None.

(** ** Comparisons *)

Lemma Qltb_lt (a b : Q) : Qltb a b = true <-> a < b.
Proof.
  unfold Qltb. rewrite negb_true_iff.
  destruct (Qle_bool b a) eqn:E.
  - apply Qle_bool_iff in E. split; [discriminate | intro H; lra].
  - split; [intros _ | reflexivity].
    apply Qnot_le_lt. intro H. apply Qle_bool_iff in H. congruence.
Qed.

Lemma Qltb_ge (a b : Q) : Qltb a b = false <-> b <= a.
Proof.
  unfold Qltb. rewrite negb_false_iff. apply Qle_bool_iff.
Qed.

Lemma Qle_bool_gt (a b : Q) : Qle_bool a b = false <-> b < a.
Proof.
  rewrite <- Qltb_lt. unfold Qltb. now rewrite negb_true_iff.
Qed.

#[export] Instance Qltb_comp : Proper (Qeq ==> Qeq ==> eq) Qltb.
Proof.
  intros a a' Ha b b' Hb. unfold Qltb. now rewrite Ha, Hb.
Qed.

Lemma Qeq_bool_neq (a b : Q) : ~ a == b -> Qeq_bool a b = false.
Proof.
  intro H. destruct (Qeq_bool a b) eqn:E; [|reflexivity].
  apply Qeq_bool_eq in E. contradiction.
Qed.

Lemma pymax_cases (a b : Q) :
  (pymax a b = a /\ b <= a) \/ (pymax a b = b /\ a < b).
Proof.
  unfold pymax. destruct (Qltb a b) eqn:E.
  - right. apply Qltb_lt in E. auto.
  - left. apply Qltb_ge in E. auto.
Qed.

Lemma pymin_cases (a b : Q) :
  (pymin a b = a /\ a <= b) \/ (pymin a b = b /\ b < a).
Proof.
  unfold pymin. destruct (Qltb b a) eqn:E.
  - right. apply Qltb_lt in E. auto.
  - left. apply Qltb_ge in E. auto.
Qed.

(** ** The remainder *)

Lemma Qfloor_unique (q : Q) (k : Z) :
  inject_Z k <= q -> q < inject_Z (k + 1) -> Qfloor q = k.
Proof.
  intros Hlo Hhi.
  pose proof (Qfloor_le q) as Hf. pose proof (Qlt_floor q) as Hg.
  assert (H1 : inject_Z k < inject_Z (Qfloor q + 1)) by lra.
  assert (H2 : inject_Z (Qfloor q) < inject_Z (k + 1)) by lra.
  rewrite <- Zlt_Qlt in H1, H2. lia.
Qed.

Lemma Qfloor_succ (q : Q) : Qfloor (q + 1) = (Qfloor q + 1)%Z.
Proof.
  pose proof (Qfloor_le q) as Hf. pose proof (Qlt_floor q) as Hg.
  rewrite inject_Z_plus in Hg.
  apply Qfloor_unique; rewrite ?inject_Z_plus;
    change (inject_Z 1) with 1 in *; lra.
Qed.

#[export] Instance Qmod_comp : Proper (Qeq ==> Qeq ==> Qeq) Qmod.
Proof.
  intros x x' Hx m m' Hm. unfold Qmod.
  assert (E : Qfloor (x / m) = Qfloor (x' / m')) by now rewrite Hx, Hm.
  rewrite E, Hx, Hm. reflexivity.
Qed.

Lemma Qmod_add_period (x m : Q) : ~ m == 0 -> Qmod (x + m) m == Qmod x m.
Proof.
  intro Hm. unfold Qmod.
  assert (E : (x + m) / m == x / m + 1) by (field; exact Hm).
  rewrite E, Qfloor_succ, inject_Z_plus. simpl inject_Z. ring.
Qed.

Lemma Qmod_sub_period (x m : Q) : ~ m == 0 -> Qmod (x - m) m == Qmod x m.
Proof.
  intro Hm. rewrite <- (Qmod_add_period (x - m) m Hm).
  apply Qmod_comp; [ring | reflexivity].
Qed.

(** Two values half a period apart have equal remainders in both
    directions. *)
Lemma half_period_tie (x y m : Q) :
  ~ m == 0 -> y - x == m / 2 -> Qmod (x - y) m == Qmod (y - x) m.
Proof.
  intros Hm H. rewrite <- (Qmod_sub_period (y - x) m Hm).
  apply Qmod_comp; [|reflexivity].
  unfold Qdiv in H. change (/ 2) with (1 # 2) in H. lra.
Qed.

Lemma pymod_nonzero (x m : Q) : ~ m == 0 -> pymod x m = Return (Qmod x m).
Proof.
  intro Hm. unfold pymod. now rewrite Qeq_bool_neq.
Qed.

Lemma pymod_zero (x m : Q) : m == 0 -> pymod x m = Raise ZeroDivisionError.
Proof.
  intro Hm. unfold pymod.
  destruct (Qeq_bool m 0) eqn:E; [reflexivity|].
  apply Qeq_eq_bool in Hm. congruence.
Qed.

(** ** The first loop *)

Lemma arc_step_nonzero (m : Q) (s : bounds) (x y : Q) :
  ~ m == 0 ->
  arc_step m s (x, y) =
  Return (if violating m x y
          then mkBounds (maxn (o0 s) (Some (fst (interval m x y))))
                        (minn (o1 s) (Some (snd (interval m x y)))) (keep s)
          else mkBounds (o0 s) (o1 s) (keep s ++ [interval m x y])).
Proof.
  intro Hm. unfold arc_step, violating, interval, wants_descending.
  rewrite !pymod_nonzero by exact Hm. simpl.
  destruct (Qltb (Qmod (x - y) m) (Qmod (y - x) m));
    [destruct (Qltb x y) | destruct (Qltb y x)]; reflexivity.
Qed.




Lemma first_pass_total (m : Q) (al : list (Q * Q)) (s : bounds) :
  ~ m == 0 -> exists s', first_pass m s al = Return s'.
Proof.
  intro Hm. revert s. induction al as [|[x y] al IH]; intro s;
    cbn [first_pass].
  - now exists s.
  - rewrite arc_step_nonzero by exact Hm. cbn [bind]. apply IH.
Qed.

Ltac unfold_first_pass Hm :=
  cbn [first_pass]; rewrite arc_step_nonzero by exact Hm; cbn [bind].

Section FirstPass.

Variable m : Q.
Hypothesis Hm : ~ m == 0.

Lemma maxn_lower (s : option Q) (v lo : Q) :
  (exists a, s = Some a /\ lo <= a) \/ lo <= v ->
  exists a, maxn s (Some v) = Some a /\ lo <= a.
Proof.
  destruct s as [a|]; simpl.
  - destruct (pymax_cases a v) as [[-> H]|[-> H]]; intros [(a' & E & L)|L];
      try (injection E as <-); eexists; split; try reflexivity; lra.
  - intros [(a' & E & _)|L]; [discriminate|]. now exists v.
Qed.

Lemma minn_upper (s : option Q) (v hi : Q) :
  (exists b, s = Some b /\ b <= hi) \/ v <= hi ->
  exists b, minn s (Some v) = Some b /\ b <= hi.
Proof.
  destruct s as [b|]; simpl.
  - destruct (pymin_cases b v) as [[-> H]|[-> H]]; intros [(b' & E & L)|L];
      try (injection E as <-); eexists; split; try reflexivity; lra.
  - intros [(b' & E & _)|L]; [discriminate|]. now exists v.
Qed.

(** Both bounds are set together. *)
Lemma first_pass_paired (al : list (Q * Q)) (s s' : bounds) :
  (o0 s = None <-> o1 s = None) ->
  first_pass m s al = Return s' ->
  (o0 s' = None <-> o1 s' = None).
Proof.
  revert s. induction al as [|[x y] al IH]; intros s Hs.
  - cbn [first_pass]. now intros [= <-].
  - unfold_first_pass Hm. apply IH.
    destruct (violating m x y); cbn [o0 o1]; [|exact Hs].
    destruct (o0 s), (o1 s); simpl; split; intro; try discriminate;
      destruct Hs; auto; discriminate.
Qed.

(** Without a violating arc the bounds stay as they were. *)
Lemma first_pass_all_keep (al : list (Q * Q)) (s s' : bounds) :
  (forall x y, In (x, y) al -> violating m x y = false) ->
  first_pass m s al = Return s' ->
  o0 s' = o0 s /\ o1 s' = o1 s.
Proof.
  revert s. induction al as [|[x y] al IH]; intros s Hal.
  - cbn [first_pass]. now intros [= <-].
  - unfold_first_pass Hm. rewrite (Hal x y) by now left.
    intro H. apply IH in H; [exact H|].
    intros. apply Hal. now right.
Qed.

(** The bounds only move inwards, and every violating arc constrains
    them. *)
Lemma first_pass_covers (al : list (Q * Q)) (s s' : bounds) :
  first_pass m s al = Return s' ->
  (forall lo, lower_ok s lo -> lower_ok s' lo) /\
  (forall hi, upper_ok s hi -> upper_ok s' hi) /\
  (forall x y, In (x, y) al -> violating m x y = true ->
     lower_ok s' (fst (interval m x y)) /\
     upper_ok s' (snd (interval m x y))).
Proof.
  revert s. induction al as [|[x y] al IH]; intros s.
  - cbn [first_pass]. intros [= <-]. repeat split; auto; contradiction.
  - unfold_first_pass Hm. intro H.
    destruct (IH _ H) as (Hlo & Hhi & Hin). clear IH H.
    split; [|split].
    + intros lo L. apply Hlo.
      destruct (violating m x y); [|exact L].
      apply maxn_lower. left. exact L.
    + intros hi U. apply Hhi.
      destruct (violating m x y); [|exact U].
      apply minn_upper. left. exact U.
    + intros x' y' [[= <- <-]|Hxy] V; [|now apply Hin].
      rewrite V in *. split.
      * apply Hlo. apply maxn_lower. right. lra.
      * apply Hhi. apply minn_upper. right. lra.
Qed.


End FirstPass.

(** ** The second and third loop *)






(** ** The solver as a whole *)


Lemma arcs_short (l : list Q) : (length l < 2)%nat -> arcs l = [].
Proof.
  destruct l as [|a [|b l]]; simpl; intro H; try reflexivity. lia.
Qed.



Lemma lift_total (l : list Q) (m : Q) :
  ~ m == 0 -> exists r, lift l m = Return r.
Proof.
  intro Hm. unfold lift.
  destruct (first_pass_total m (arcs l) init Hm) as [s F]. rewrite F.
  cbn [bind]. unfold finish.
  assert (P : o0 s = None <-> o1 s = None)
    by (apply (first_pass_paired m Hm (arcs l) init); [now split | exact F]).
  destruct (o0 s) as [lo|].
  - destruct (o1 s) as [hi|].
    + destruct (Qle_bool hi lo); [eauto|]. cbv zeta.
      destruct (Qle_bool _ _); eauto.
    + destruct P as [_ P]. now specialize (P eq_refl).
  - eauto.
Qed.

Lemma positive_nonzero (m : Q) : 0 < m -> ~ m == 0.
Proof. intros H E. rewrite E in H. now apply Qlt_irrefl in H. Qed.

(** ** Shifting a sequence *)





Lemma finish_spec (s : bounds) :
  (o0 s = None <-> o1 s = None) ->
  (finish s = Return None <-> no_cut_condition s) /\
  (~ no_cut_condition s ->
   exists lo hi,
     o0 s = Some lo /\ o1 s = Some hi /\
     finish s = Return (Some (final_lo s lo
                              + (final_hi s lo hi - final_lo s lo) / 2))).
Proof.
  intro P. unfold finish, no_cut_condition, final_hi, final_lo.
  destruct (o0 s) as [lo|].
  - destruct (o1 s) as [hi|];
      [|destruct P as [_ P]; now specialize (P eq_refl)].
    destruct (Qle_bool hi lo) eqn:C1.
    { apply Qle_bool_iff in C1. split.
      - split; [intros _|reflexivity]. right. exists lo, hi. auto.
      - intro N. exfalso. apply N. right. exists lo, hi. auto. }
    apply Qle_bool_gt in C1. cbv zeta.
    destruct (Qle_bool _ (widen (keep s) lo)) eqn:C2.
    { apply Qle_bool_iff in C2. split.
      - split; [intros _|reflexivity]. right. exists lo, hi. auto.
      - intro N. exfalso. apply N. right. exists lo, hi. auto. }
    apply Qle_bool_gt in C2. split.
    + split; [discriminate|].
      intros [E|(lo' & hi' & [= <-] & [= <-] & [H|H])]; [discriminate| |]; lra.
    + intros _. exists lo, hi. auto.
  - split.
    + split; [now left | reflexivity].
    + intro N. exfalso. apply N. now left.
Qed.

Lemma lift_all_keep (l : list Q) (m : Q) :
  ~ m == 0 ->
  (forall x y, In (x, y) (arcs l) -> violating m x y = false) ->
  lift l m = Return None.
Proof.
  intros Hm K.
  destruct (first_pass_total m (arcs l) init Hm) as [s F].
  unfold lift. rewrite F. cbn [bind].
  destruct (first_pass_all_keep m Hm _ _ _ K F) as [E _].
  unfold finish. now rewrite E.
Qed.





Lemma period_nonzero (ax : axis) : ~ period ax == 0.
Proof. destruct ax; discriminate. Qed.

Lemma shift_coord_fields (ax : axis) (o : Q) (c : Coordinates) :
  field ax (shift_coord ax o c)
  = (if Qltb (field ax c) o then field ax c + period ax else field ax c) /\
  (forall ax', ax' <> ax ->
     field ax' (shift_coord ax o c) = field ax' c) /\
  z (shift_coord ax o c) = z c.
Proof.
  unfold shift_coord. destruct (Qltb (field ax c) o).
  - repeat split.
    + now destruct ax.
    + intros ax' N. destruct ax, ax'; simpl; congruence.
    + now destruct ax.
  - repeat split.
Qed.

Lemma adjust_total (ax : axis) (st : list Coordinates * bool) :
  exists l' changed',
    adjust ax st = Return (l', changed') /\ map z l' = map z (fst st).
Proof.
  destruct st as [l changed]. unfold adjust.
  destruct (lift_total (map (field ax) l) (period ax) (period_nonzero ax))
    as [[o|] ->]; cbn [bind fst].
  - exists (map (shift_coord ax o) l), true. split; [reflexivity|].
    rewrite map_map. apply map_ext. intro c.
    apply shift_coord_fields.
  - now exists l, changed.
Qed.

(** ** The claims *)

(** C3.  For a positive period the first loop ends in some bounds [s]; its
    lower bound is unset exactly when no arc is violating; [lift] returns
    [None] exactly when the lower bound is unset or the interval is empty
    ([hi <= lo]) before or after the two loops over the keep pairs; in every
    other case it returns the midpoint [lo' + (hi' - lo') / 2] of the final
    interval. *)
Theorem lift_none_iff (l : list Q) (m : Q) :
  0 < m ->
  exists s,
    first_pass m init (arcs l) = Return s /\
    (o0 s = None <->
     forall x y, In (x, y) (arcs l) -> violating m x y = false) /\
    (lift l m = Return None <-> no_cut_condition s) /\
    (~ no_cut_condition s ->
     exists lo hi,
       o0 s = Some lo /\ o1 s = Some hi /\
       lift l m = Return (Some (final_lo s lo
                                + (final_hi s lo hi - final_lo s lo) / 2))).
Proof.
  intro Hpos. pose proof (positive_nonzero m Hpos) as Hm.
  destruct (first_pass_total m (arcs l) init Hm) as [s F].
  exists s. split; [exact F|].
  assert (P : o0 s = None <-> o1 s = None)
    by (apply (first_pass_paired m Hm (arcs l) init); [now split | exact F]).
  split.
  - split.
    + intros E x y Hin. destruct (violating m x y) eqn:V; [|reflexivity].
      destruct (first_pass_covers m Hm _ _ _ F) as (_ & _ & C).
      destruct (C x y Hin V) as [(a & Ea & _) _]. congruence.
    + intro K. now destruct (first_pass_all_keep m Hm _ _ _ K F) as [-> _].
  - unfold lift. rewrite F. cbn [bind]. now apply finish_spec.
Qed.

Lemma lift_none_iff_witness :
  exists s,
    first_pass 360 init (arcs [350; 359; 1]) = Return s /\
    (o0 s = None <->
     forall x y, In (x, y) (arcs [350; 359; 1]) -> violating 360 x y = false) /\
    (lift [350; 359; 1] 360 = Return None <-> no_cut_condition s) /\
    (~ no_cut_condition s ->
     exists lo hi,
       o0 s = Some lo /\ o1 s = Some hi /\
       lift [350; 359; 1] 360
       = Return (Some (final_lo s lo
                       + (final_hi s lo hi - final_lo s lo) / 2))).
Proof.
  apply (lift_none_iff [350; 359; 1] 360). reflexivity.
Defined.

(** C4.  When no arc of the sequence is violating (every adjacent pair
    already stands in the order its branch wants), [lift] returns [None],
    for every positive period and every length. *)
Theorem all_keep_no_cut (l : list Q) (m : Q) :
  0 < m ->
  (forall x y, In (x, y) (arcs l) -> violating m x y = false) ->
  lift l m = Return None.
Proof.
  intros Hpos K. apply lift_all_keep; [now apply positive_nonzero | exact K].
Qed.

(** [solve([10, 20, 30], 360)] is an instance. *)
Lemma all_keep_no_cut_witness : lift [10; 20; 30] 360 = Return None.
Proof.
  apply (all_keep_no_cut [10; 20; 30] 360).
  - reflexivity.
  - intros x y [H|[H|[]]]; injection H as <- <-; vm_compute; reflexivity.
Defined.

(** C5.  [lift([359, 1], 360)] returns a threshold, and adding 360 to the
    values below it turns the sequence into [[359, 361]]. *)
Theorem boundary_359_1 :
  exists o,
    lift [359; 1] 360 = Return (Some o) /\
    o == 180 /\
    apply_cut [359; 1] 360 o = [359; 361].
Proof.
  eexists. split; [vm_compute; reflexivity|].
  split; reflexivity.
Qed.

(** C6.  A pair whose two remainders are equal takes the branch "wants
    x < y" of the loop: it constrains the bounds with [(y, x)] when [y < x]
    and is kept as [(x, y)] otherwise; the step returns, it does not
    raise. *)
Theorem tie_takes_forward_branch (m : Q) (s : bounds) (x y : Q) :
  0 < m ->
  Qmod (x - y) m == Qmod (y - x) m ->
  wants_descending m x y = false /\
  arc_step m s (x, y) =
  Return (if Qltb y x
          then mkBounds (maxn (o0 s) (Some y)) (minn (o1 s) (Some x)) (keep s)
          else mkBounds (o0 s) (o1 s) (keep s ++ [(x, y)])).
Proof.
  intros Hpos T. pose proof (positive_nonzero m Hpos) as Hm.
  assert (W : Qltb (Qmod (x - y) m) (Qmod (y - x) m) = false)
    by (apply Qltb_ge; rewrite T; apply Qle_refl).
  split; [exact W|].
  unfold arc_step. rewrite !pymod_nonzero by exact Hm. cbn [bind].
  rewrite W. now destruct (Qltb y x).
Qed.

Lemma tie_takes_forward_branch_witness :
  wants_descending 360 10 190 = false /\
  arc_step 360 init (10, 190) = Return (mkBounds None None [(10, 190)]).
Proof.
  apply (tie_takes_forward_branch 360 init 10 190); reflexivity.
Defined.

(** C7.  On a list of fewer than two values [lift] returns [None] and
    raises nothing, whatever the period. *)
Theorem short_list_no_cut (l : list Q) (m : Q) :
  (length l < 2)%nat -> lift l m = Return None.
Proof.
  intro H. unfold lift. now rewrite (arcs_short l H).
Qed.

Lemma short_list_no_cut_witness : lift [42] 360 = Return None.
Proof.
  apply (short_list_no_cut [42] 360). simpl. lia.
Defined.

(** C2.  One axis of [process_kml].  The solver returns; when it returns a
    threshold [o], the block yields a list in which every coordinate whose
    field is below [o] has the period added to that field and every other
    value (the field of the other coordinates, the other axis, the altitude)
    is as before, and the flag [changed] is true; when it returns [None] the
    list is the one given and the flag keeps its value, false where the
    block was entered with false. *)
Theorem adjust_contract (ax : axis) (l : list Coordinates) (changed : bool) :
  exists r,
    lift (map (field ax) l) (period ax) = Return r /\
    match r with
    | Some o =>
        exists l',
          adjust ax (l, changed) = Return (l', true) /\
          Forall2 (fun c c' =>
                     field ax c'
                     = (if Qltb (field ax c) o
                        then field ax c + period ax else field ax c) /\
                     (forall ax', ax' <> ax -> field ax' c' = field ax' c) /\
                     z c' = z c) l l'
    | None =>
        adjust ax (l, changed) = Return (l, changed) /\
        adjust ax (l, false) = Return (l, false)
    end.
Proof.
  destruct (lift_total (map (field ax) l) (period ax) (period_nonzero ax))
    as [r L].
  exists r. split; [exact L|].
  unfold adjust. rewrite L. cbn [bind]. destruct r as [o|].
  - eexists. split; [reflexivity|].
    clear L. induction l as [|c l IH]; simpl; constructor.
    + apply shift_coord_fields.
    + exact IH.
  - split; reflexivity.
Qed.

(** C8.  [process_kml] returns for every path, and the altitudes of the
    coordinates it yields are those of the input, in order, whether or not
    an axis was shifted. *)
Theorem altitude_unchanged (l : list Coordinates) :
  exists l' changed,
    process_path l = Return (l', changed) /\ map z l' = map z l.
Proof.
  unfold process_path.
  destruct (adjust_total Longitude (l, false)) as (l1 & c1 & -> & Z1).
  cbn [bind].
  destruct (adjust_total Latitude (l1, c1)) as (l2 & c2 & -> & Z2).
  exists l2, c2. split; [reflexivity|].
  cbn [fst] in *. congruence.
Qed.






(** ** Remainders within one period *)






(** ** More on the first loop *)

Lemma arcs_long (l : list Q) :
  (2 <= length l)%nat -> exists a al, arcs l = a :: al.
Proof.
  destruct l as [|a [|b l]]; simpl; intro H; try lia.
  now exists (a, b), (combine (b :: l) l).
Qed.

Lemma interval_of_violating (m x y : Q) :
  violating m x y = true -> interval m x y = (pymin x y, pymax x y).
Proof.
  unfold violating, interval, pymin, pymax.
  destruct (wants_descending m x y); intro V; rewrite V.
  - assert (C : Qltb y x = false)
      by (apply Qltb_ge, Qlt_le_weak, Qltb_lt, V).
    now rewrite C.
  - assert (C : Qltb x y = false)
      by (apply Qltb_ge, Qlt_le_weak, Qltb_lt, V).
    now rewrite C.
Qed.

Section FirstPassMore.

Variable m : Q.
Hypothesis Hm : ~ m == 0.

(** A bound the loop ends with was there at the start or is the end of a
    violating arc. *)
Lemma first_pass_attained (al : list (Q * Q)) (s s' : bounds) :
  first_pass m s al = Return s' ->
  (forall a, o0 s' = Some a ->
     o0 s = Some a \/
     exists x y, In (x, y) al /\ violating m x y = true /\
                 fst (interval m x y) = a) /\
  (forall b, o1 s' = Some b ->
     o1 s = Some b \/
     exists x y, In (x, y) al /\ violating m x y = true /\
                 snd (interval m x y) = b).
Proof.
  revert s. induction al as [|[x y] al IH]; intros s.
  - cbn [first_pass]. intros [= <-]. split; auto.
  - unfold_first_pass Hm. intro H.
    destruct (IH _ H) as [A0 A1]. clear IH H.
    split.
    + intros a E. destruct (A0 a E) as [E'|(x' & y' & I & V & F)];
        [|right; exists x', y'; simpl; auto].
      destruct (violating m x y) eqn:V; cbn [o0] in E'; [|now left].
      destruct (o0 s) as [a0|]; simpl in E'.
      * destruct (pymax_cases a0 (fst (interval m x y))) as [[P _]|[P _]];
          rewrite P in E'; [now left|].
        right. exists x, y. injection E' as <-. simpl. auto.
      * right. exists x, y. injection E' as <-. simpl. auto.
    + intros b E. destruct (A1 b E) as [E'|(x' & y' & I & V & F)];
        [|right; exists x', y'; simpl; auto].
      destruct (violating m x y) eqn:V; cbn [o1] in E'; [|now left].
      destruct (o1 s) as [b0|]; simpl in E'.
      * destruct (pymin_cases b0 (snd (interval m x y))) as [[P _]|[P _]];
          rewrite P in E'; [now left|].
        right. exists x, y. injection E' as <-. simpl. auto.
      * right. exists x, y. injection E' as <-. simpl. auto.
Qed.


End FirstPassMore.




(** ** Changes of variable that keep the order *)

Section Reparam.

Variables (f : Q -> Q) (m m' : Q).
Hypothesis Hm : ~ m == 0.
Hypothesis Hm' : ~ m' == 0.
Hypothesis f_lt : forall a b, Qltb (f a) (f b) = Qltb a b.
Hypothesis f_wants :
  forall x y, wants_descending m' (f x) (f y) = wants_descending m x y.
Hypothesis f_mid :
  forall a b, f a + (f b - f a) / 2 == f (a + (b - a) / 2).











End Reparam.




(** ** The two axes of a path *)


Lemma shift_coord_other (ax ax' : axis) (o : Q) (l : list Coordinates) :
  ax' <> ax ->
  map (field ax') (map (shift_coord ax o) l) = map (field ax') l.
Proof.
  intro N. rewrite map_map. apply map_ext. intro c.
  now apply shift_coord_fields.
Qed.

Lemma shift_coord_same (ax : axis) (o : Q) (l : list Coordinates) :
  map (field ax) (map (shift_coord ax o) l)
  = map (shift (period ax) o) (map (field ax) l).
Proof.
  rewrite !map_map. apply map_ext. intro c. unfold shift.
  apply shift_coord_fields.
Qed.

Lemma shift_coord_commute (o1 o2 : Q) (c : Coordinates) :
  shift_coord Latitude o2 (shift_coord Longitude o1 c)
  = shift_coord Longitude o1 (shift_coord Latitude o2 c).
Proof.
  unfold shift_coord. simpl.
  destruct (Qltb (longitude c) o1) eqn:A, (Qltb (latitude c) o2) eqn:B;
    simpl; rewrite ?A, ?B; reflexivity.
Qed.


Lemma adjust_cases (ax : axis) (l : list Coordinates) (changed : bool) :
  (lift (map (field ax) l) (period ax) = Return None /\
   adjust ax (l, changed) = Return (l, changed)) \/
  (exists o,
     lift (map (field ax) l) (period ax) = Return (Some o) /\
     adjust ax (l, changed) = Return (map (shift_coord ax o) l, true)).
Proof.
  unfold adjust.
  destruct (lift_total (map (field ax) l) (period ax) (period_nonzero ax))
    as [[o|] L]; rewrite L; cbn [bind]; [right; exists o | left]; auto.
Qed.

Lemma process_path_cases (l : list Coordinates) :
  exists r1 r2,
    lift (map longitude l) 360 = Return r1 /\
    lift (map latitude l) 180 = Return r2 /\
    process_path l =
    Return (match r2 with
            | Some o2 => map (shift_coord Latitude o2)
            | None => fun l => l
            end
              (match r1 with
               | Some o1 => map (shift_coord Longitude o1) l
               | None => l
               end),
            match r1, r2 with
            | None, None => false
            | _, _ => true
            end).
Proof.
  unfold process_path.
  destruct (adjust_cases Longitude l false) as [[L1 ->]|(o1 & L1 & ->)];
    cbn [bind field period] in *.
  - exists None. destruct (adjust_cases Latitude l false)
      as [[L2 ->]|(o2 & L2 & ->)]; cbn [field period] in *.
    + now exists None.
    + now exists (Some o2).
  - exists (Some o1).
    destruct (adjust_cases Latitude (map (shift_coord Longitude o1) l) true)
      as [[L2 ->]|(o2 & L2 & ->)]; cbn [field period] in *;
      rewrite (shift_coord_other Longitude Latitude) in L2 by discriminate.
    + now exists None.
    + now exists (Some o2).
Qed.



(** ** Splitting and joining *)

Lemma split_cons (sep c : N) (s : str) :
  split sep (c :: s) =
  if (c =? sep)%N then [] :: split sep s
  else match split sep s with
       | p :: ps => (c :: p) :: ps
       | [] => [[c]]
       end.
Proof. reflexivity. Qed.

Lemma split_nonempty (sep : N) (s : str) : split sep s <> [].
Proof.
  induction s as [|c s IH]; [discriminate|].
  rewrite split_cons. destruct (c =? sep)%N; [discriminate|].
  destruct (split sep s); discriminate.
Qed.

Lemma split_length (sep : N) (s : str) :
  List.length (split sep s) = S (count_occ N.eq_dec s sep).
Proof.
  induction s as [|c s IH]; [reflexivity|].
  rewrite split_cons. cbn [count_occ].
  destruct (N.eqb_spec c sep) as [E|E].
  - destruct (N.eq_dec c sep); [|contradiction]. simpl. now rewrite IH.
  - destruct (N.eq_dec c sep); [contradiction|].
    destruct (split sep s) as [|p ps] eqn:S; [now destruct (split_nonempty sep s)|].
    now rewrite <- IH.
Qed.

Lemma split_pieces (sep : N) (s : str) (p : str) :
  In p (split sep s) -> ~ In sep p.
Proof.
  revert p. induction s as [|c s IH]; intros p.
  - intros [<-|[]] [].
  - rewrite split_cons. destruct (N.eqb_spec c sep) as [E|E].
    + intros [<-|I]; [intros []|now apply IH].
    + destruct (split sep s) as [|q qs] eqn:S.
      * intros [<-|[]] [H|[]]. now apply E.
      * intros [<-|I].
        -- intros [H|H]; [now apply E|]. apply (IH q); [now left|exact H].
        -- apply IH. now right.
Qed.

Lemma split_free (sep : N) (s : str) : ~ In sep s -> split sep s = [s].
Proof.
  induction s as [|c s IH]; intro H; [reflexivity|].
  rewrite split_cons. destruct (N.eqb_spec c sep) as [E|E].
  - exfalso. apply H. now left.
  - rewrite IH; [reflexivity|]. intro I. apply H. now right.
Qed.

Lemma split_app (sep : N) (p s : str) :
  ~ In sep p -> split sep (p ++ sep :: s) = p :: split sep s.
Proof.
  induction p as [|c p IH]; intro H.
  - simpl. now rewrite N.eqb_refl.
  - cbn [app]. rewrite split_cons. destruct (N.eqb_spec c sep) as [E|E].
    + exfalso. apply H. now left.
    + rewrite IH; [reflexivity|]. intro I. apply H. now right.
Qed.

Lemma join_cons2 (sep p q : str) (qs : list str) :
  join sep (p :: q :: qs) = p ++ sep ++ join sep (q :: qs).
Proof. reflexivity. Qed.

Lemma join_split (sep : N) (s : str) : join [sep] (split sep s) = s.
Proof.
  induction s as [|c s IH]; [reflexivity|].
  rewrite split_cons.
  destruct (split sep s) as [|p ps] eqn:S;
    [now destruct (split_nonempty sep s)|].
  destruct (N.eqb_spec c sep) as [->|E].
  - rewrite join_cons2, IH. reflexivity.
  - destruct ps as [|q qs].
    + simpl in *. now rewrite IH.
    + rewrite join_cons2 in *. now rewrite <- IH.
Qed.

Lemma split_join (sep : N) (pieces : list str) :
  pieces <> [] ->
  (forall p, In p pieces -> ~ In sep p) ->
  split sep (join [sep] pieces) = pieces.
Proof.
  induction pieces as [|p ps IH]; intros N0 H; [contradiction|].
  destruct ps as [|q qs].
  - simpl. apply split_free. apply H. now left.
  - rewrite join_cons2. cbn [app].
    rewrite split_app by (apply H; now left).
    f_equal. apply IH; [discriminate|]. intros. apply H. now right.
Qed.

(** ** Stripping *)

Lemma lstrip_head (c : N) (s : str) :
  isspace c = false -> lstrip (c :: s) = c :: s.
Proof. intro H. simpl. now rewrite H. Qed.

Lemma strip_clean (s : str) :
  (forall c, In c s -> isspace c = false) -> strip s = s.
Proof.
  intro H. unfold strip.
  assert (L : forall t : str,
             (forall c, In c t -> isspace c = false) -> lstrip t = t).
  { intros [|c t] Ht; [reflexivity|]. apply lstrip_head. apply Ht. now left. }
  rewrite (L s H), L, rev_involutive; [reflexivity|].
  intros c I. apply H. now apply in_rev.
Qed.

Lemma strip_ends (s : str) (a b : N) (t : str) :
  s = a :: t -> (exists t', s = t' ++ [b]) ->
  isspace a = false -> isspace b = false -> strip s = s.
Proof.
  intros -> [t' E] Ha Hb. unfold strip.
  rewrite (lstrip_head a t Ha), E, rev_app_distr. cbn [rev app].
  rewrite (lstrip_head b _ Hb).
  change (b :: rev t') with (rev [b] ++ rev t').
  now rewrite <- rev_app_distr, rev_involutive.
Qed.

Lemma space_isspace : isspace space = true.
Proof. reflexivity. Qed.

Lemma comprehension_all {A B : Type} (f : A -> outcome B) (g : A -> B)
      (l : list A) :
  (forall a, In a l -> f a = Done (g a)) ->
  comprehension f l = Done (map g l).
Proof.
  induction l as [|a l IH]; intro H; [reflexivity|].
  cbn [comprehension map]. rewrite (H a) by now left. cbn [obind].
  rewrite IH; [reflexivity|]. intros. apply H. now right.
Qed.

Lemma comprehension_Done {A B : Type} (f : A -> outcome B)
      (l : list A) (bs : list B) :
  comprehension f l = Done bs <-> Forall2 (fun a b => f a = Done b) l bs.
Proof.
  revert bs. induction l as [|a l IH]; intro bs.
  - simpl. split.
    + intros [= <-]. constructor.
    + intro H. inversion H. reflexivity.
  - cbn [comprehension]. split.
    + destruct (f a) as [b|e] eqn:E; cbn [obind]; [|discriminate].
      destruct (comprehension f l) as [bs'|e] eqn:C; cbn [obind];
        [|discriminate].
      intros [= <-]. constructor; [exact E|]. now apply IH.
    + intro H. inversion H as [|a' b l' bs' E T]; subst.
      rewrite E. cbn [obind]. apply IH in T. now rewrite T.
Qed.

(** ** Tokens *)

Lemma lstrip_incl (s : str) (c : N) : In c (lstrip s) -> In c s.
Proof.
  induction s as [|a s IH]; [auto|]. simpl.
  destruct (isspace a); [intro; right; auto | auto].
Qed.

Lemma strip_incl (s : str) (c : N) : In c (strip s) -> In c s.
Proof.
  unfold strip. intro H.
  apply in_rev, lstrip_incl, in_rev, lstrip_incl in H. exact H.
Qed.

Lemma keep_nonempty (ts : list str) :
  Forall (fun t => t <> []) ts ->
  filter (fun t => (0 <? List.length t)%nat) ts = ts.
Proof.
  intro H. induction H as [|t ts Ht _ IH]; [reflexivity|].
  destruct t as [|c t]; [contradiction|]. simpl. now rewrite IH.
Qed.

Lemma nonempty_length (t : str) : t <> [] <-> (0 <? List.length t)%nat = true.
Proof.
  destruct t; simpl; split; intro H; try discriminate; try reflexivity.
  now destruct H.
Qed.

Lemma join_last (ts : list str) :
  ts <> [] ->
  (forall t, In t ts -> t <> [] /\ forall c, In c t -> isspace c = false) ->
  exists t' b, join [space] ts = t' ++ [b] /\ isspace b = false.
Proof.
  induction ts as [|t ts IH]; intros N0 H; [contradiction|].
  destruct ts as [|q qs].
  - destruct (H t (or_introl eq_refl)) as [Ne Hc].
    destruct (exists_last Ne) as (t' & b & ->).
    exists t', b. split; [reflexivity|]. apply Hc, in_or_app. right. now left.
  - destruct IH as (t' & b & E & Hb); [discriminate | |].
    + intros. apply H. now right.
    + exists (t ++ [space] ++ t'), b. rewrite join_cons2, E.
      split; [now rewrite <- !app_assoc | exact Hb].
Qed.

Lemma tokens_join (ts : list str) :
  (forall t, In t ts -> t <> [] /\ forall c, In c t -> isspace c = false) ->
  tokens (join [space] ts) = ts.
Proof.
  intro H. destruct ts as [|t ts]; [reflexivity|].
  unfold tokens.
  assert (S : strip (join [space] (t :: ts)) = join [space] (t :: ts)).
  { destruct (join_last (t :: ts)) as (t' & b & E & Hb);
      [discriminate | exact H |].
    destruct (H t (or_introl eq_refl)) as [Ne Hc].
    destruct t as [|a t0]; [contradiction|].
    apply (strip_ends _ a b (match ts with
                             | [] => t0
                             | _ => t0 ++ [space] ++ join [space] ts
                             end)).
    - now destruct ts.
    - now exists t'.
    - apply Hc. now left.
    - exact Hb. }
  rewrite S, split_join.
  - apply keep_nonempty, Forall_forall. intros a I. now apply H.
  - discriminate.
  - intros p I Hs. destruct (H p I) as [_ Hc].
    specialize (Hc space Hs). discriminate.
Qed.

(** ** Reading and printing coordinates *)

Section TextFacts.

Variable mpf : str -> outcome Q.
Variable show : Q -> str.

Lemma split_three (f1 f2 f3 : str) :
  ~ In comma f1 -> ~ In comma f2 -> ~ In comma f3 ->
  split comma (f1 ++ [comma] ++ f2 ++ [comma] ++ f3) = [f1; f2; f3].
Proof.
  intros H1 H2 H3. cbn [app].
  rewrite (split_app comma f1) by exact H1.
  rewrite (split_app comma f2) by exact H2.
  now rewrite (split_free comma f3) by exact H3.
Qed.

Lemma fromstring_shape (s : str) (c : Coordinates) :
  fromstring mpf s = Done c <->
  exists f1 f2 f3,
    s = f1 ++ [comma] ++ f2 ++ [comma] ++ f3 /\
    ~ In comma f1 /\ ~ In comma f2 /\ ~ In comma f3 /\
    mpf f1 = Done (longitude c) /\ mpf f2 = Done (latitude c) /\
    mpf f3 = Done (z c).
Proof.
  unfold fromstring. split.
  - destruct (comprehension mpf (split comma s)) as [fields|e] eqn:C;
      cbn [obind]; [|discriminate].
    destruct fields as [|lon [|lat [|alt [|? ?]]]]; try discriminate.
    intros [= <-]. apply comprehension_Done in C.
    inversion C as [|f1 ? r1 ? E1 C1 S1]; subst.
    inversion C1 as [|f2 ? r2 ? E2 C2]; subst.
    inversion C2 as [|f3 ? r3 ? E3 C3]; subst.
    inversion C3; subst.
    exists f1, f2, f3. cbn [longitude latitude z].
    assert (P : forall p, In p [f1; f2; f3] -> ~ In comma p)
      by (intro p; rewrite S1; apply split_pieces).
    repeat split; try assumption; try (apply P; simpl; auto).
    rewrite <- (join_split comma s), <- S1. reflexivity.
  - intros (f1 & f2 & f3 & -> & H1 & H2 & H3 & E1 & E2 & E3).
    rewrite (split_three f1 f2 f3 H1 H2 H3).
    cbn [comprehension]. rewrite E1, E2, E3. cbn [obind].
    now destruct c.
Qed.

Lemma comprehension_total {A B : Type} (f : A -> outcome B) (l : list A) :
  (forall a, In a l -> exists b, f a = Done b) ->
  exists bs, comprehension f l = Done bs /\ List.length bs = List.length l.
Proof.
  induction l as [|a l IH]; intro H; [now exists []|].
  destruct (H a (or_introl eq_refl)) as [b E].
  destruct IH as (bs & C & L); [intros; apply H; now right|].
  exists (b :: bs). cbn [comprehension]. rewrite E, C. cbn [obind].
  split; [reflexivity | simpl; now rewrite L].
Qed.

Lemma tostring_fromstring (c : Coordinates) :
  coordinates_print_back mpf show c ->
  fromstring mpf (tostring show c) = Done c.
Proof.
  intros ([C1 E1] & [C2 E2] & [C3 E3]). apply fromstring_shape.
  exists (show (longitude c)), (show (latitude c)), (show (z c)).
  repeat split; try assumption; intro I.
  - now destruct (C1 _ I).
  - now destruct (C2 _ I).
  - now destruct (C3 _ I).
Qed.

Lemma tostring_clean (c : Coordinates) :
  coordinates_print_back mpf show c ->
  tostring show c <> [] /\
  forall a, In a (tostring show c) -> isspace a = false.
Proof.
  intros ([C1 _] & [C2 _] & [C3 _]). unfold tostring. split.
  - intro E. apply (f_equal (@List.length N)) in E.
    rewrite !length_app in E. simpl in E. lia.
  - intros a I. rewrite !in_app_iff in I.
    destruct I as [I|[[<-|[]]|[I|[[<-|[]]|I]]]]; try reflexivity.
    + now destruct (C1 _ I).
    + now destruct (C2 _ I).
    + now destruct (C3 _ I).
Qed.

Lemma reparse (l : list Coordinates) :
  (forall c, In c l -> coordinates_print_back mpf show c) ->
  parse_path mpf (join [space] (map (tostring show) l)) = Done l.
Proof.
  intro H. unfold parse_path. rewrite tokens_join.
  - apply comprehension_Done.
    induction l as [|c l IH]; constructor.
    + apply tostring_fromstring, H. now left.
    + apply IH. intros. apply H. now right.
  - intros t I. apply in_map_iff in I. destruct I as (c & <- & I).
    now apply tostring_clean, H.
Qed.

Lemma process_text_cases (text : str) (l : list Coordinates) :
  parse_path mpf text = Done l ->
  exists l' changed,
    process_path l = Return (l', changed) /\
    process_text mpf show text
    = Done (if changed then join [space] (map (tostring show) l') else text).
Proof.
  intro P. unfold process_text. rewrite P. cbn [obind].
  destruct (process_path_cases l) as (r1 & r2 & _ & _ & ->).
  cbn [of_result obind fst snd]. eauto.
Qed.

End TextFacts.

(** ** File names *)

Lemma str_eqb_eq (a b : str) : str_eqb a b = true <-> a = b.
Proof.
  revert b. induction a as [|x a IH]; intros [|y b]; simpl.
  - split; reflexivity.
  - split; discriminate.
  - split; discriminate.
  - rewrite andb_true_iff, N.eqb_eq, IH. split.
    + now intros [-> ->].
    + intros [= -> ->]. auto.
Qed.

Lemma str_eqb_refl (a : str) : str_eqb a a = true.
Proof. now apply str_eqb_eq. Qed.

Lemma endswith_app (p suffix : str) : endswith (p ++ suffix) suffix = true.
Proof.
  unfold endswith. rewrite length_app. apply andb_true_iff. split.
  - apply Nat.leb_le. lia.
  - replace (List.length p + List.length suffix - List.length suffix)%nat
      with (List.length p + 0)%nat by lia.
    rewrite skipn_app, Nat.add_0_r, skipn_all.
    replace (List.length p - List.length p)%nat with 0%nat by lia.
    simpl. apply str_eqb_refl.
Qed.

Lemma endswith_length (s suffix : str) :
  endswith s suffix = true -> (List.length suffix <= List.length s)%nat.
Proof.
  unfold endswith. intro H. apply andb_true_iff in H.
  now apply Nat.leb_le.
Qed.

Lemma lifted_name_length (a : str) :
  (4 <= List.length a)%nat ->
  List.length (lifted_name a) = (List.length a + 7)%nat.
Proof.
  intro H. unfold lifted_name.
  rewrite length_app, length_firstn.
  change (List.length (lit "-lifted.kml")) with 11%nat. lia.
Qed.

Lemma lifted_name_ends (a : str) :
  endswith (lifted_name a) (lit "-lifted.kml") = true.
Proof. apply endswith_app. Qed.

Lemma write_file_other (files0 : files) (name content n : str) :
  n <> name -> write_file files0 name content n = files0 n.
Proof.
  intro H. unfold write_file.
  destruct (str_eqb n name) eqn:E; [|reflexivity].
  apply str_eqb_eq in E. contradiction.
Qed.

Lemma write_file_same (files0 : files) (name content : str) :
  write_file files0 name content name = Some content.
Proof. unfold write_file. now rewrite str_eqb_refl. Qed.

Section MainFacts.

Variable process_kml : str -> outcome str.
Variable kmz_doc : str -> outcome str.

Lemma recognised_length (a : str) : recognised a -> (4 <= List.length a)%nat.
Proof.
  intros [H|H]; apply endswith_length in H; exact H.
Qed.

Lemma convert_recognised (w : world) (a : str) :
  recognised a ->
  (exists e, convert process_kml kmz_doc w a = Failed e) \/
  (exists k, convert process_kml kmz_doc w a
             = Done (Some (lifted_name a), Some k)).
Proof.
  intro R. unfold convert.
  destruct (endswith a (lit ".kmz")) eqn:Z.
  - destruct (read_file (fs w) a) as [archive|e]; cbn [obind]; [|eauto].
    destruct (kmz_doc archive) as [doc|e]; cbn [obind]; [|eauto].
    destruct (process_kml doc) as [k|e]; cbn [obind]; eauto.
  - destruct R as [R|R]; [congruence|]. rewrite R.
    destruct (read_file (fs w) a) as [doc|e]; cbn [obind]; [|eauto].
    destruct (process_kml doc) as [k|e]; cbn [obind]; eauto.
Qed.

Lemma main_step_lifted (w : world) (a : str) :
  named_lifted w ->
  named_lifted (fst (main_step process_kml kmz_doc w a)) /\
  forall n, endswith n (lit "-lifted.kml") = false ->
    fs (fst (main_step process_kml kmz_doc w a)) n = fs w n.
Proof.
  intro I. unfold main_step.
  assert (C : forall name kml,
             convert process_kml kmz_doc w a = Done (name, kml) ->
             forall n, name = Some n ->
               endswith n (lit "-lifted.kml") = true).
  { unfold convert.
    destruct (endswith a (lit ".kmz")).
    - destruct (read_file (fs w) a) as [archive|e]; cbn [obind];
        [|discriminate].
      destruct (kmz_doc archive) as [doc|e]; cbn [obind]; [|discriminate].
      destruct (process_kml doc) as [k|e]; cbn [obind]; [|discriminate].
      intros name kml [= <- <-] n [= <-]. apply lifted_name_ends.
    - destruct (endswith a (lit ".kml")).
      + destruct (read_file (fs w) a) as [doc|e]; cbn [obind];
          [|discriminate].
        destruct (process_kml doc) as [k|e]; cbn [obind]; [|discriminate].
        intros name kml [= <- <-] n [= <-]. apply lifted_name_ends.
      + intros name kml [= <- <-]. exact I. }
  destruct (convert process_kml kmz_doc w a) as [[name kml]|e].
  - specialize (C name kml eq_refl).
    assert (W : forall n0 content n,
               name = Some n0 ->
               endswith n (lit "-lifted.kml") = false ->
               write_file (fs w) n0 content n = fs w n).
    { intros n0 content n E F. apply write_file_other. intros ->.
      rewrite (C n0 E) in F. discriminate. }
    destruct name as [n0|]; [destruct kml as [k|]|]; cbn [fst fs outfilename];
      (split; [intros ? [= <-]; now apply C | eauto]).
  - cbn [fst fs outfilename]. split; [exact I | reflexivity].
Qed.

Lemma main_loop_lifted (argv : list str) (w : world) :
  named_lifted w ->
  forall n, endswith n (lit "-lifted.kml") = false ->
    fs (fst (main_loop process_kml kmz_doc w argv)) n = fs w n.
Proof.
  revert w. induction argv as [|a rest IH]; intros w I n F; [reflexivity|].
  cbn [main_loop].
  destruct (main_step_lifted w a I) as [I' S].
  destruct (main_step process_kml kmz_doc w a) as [w' [e|]]; cbn [fst] in *.
  - now apply S.
  - rewrite IH by assumption. now apply S.
Qed.

End MainFacts.

(** ** Further properties of the solver *)

(** X1.  [lift] raises exactly when the period is zero and the list has at
    least two values, and what it raises then is [ZeroDivisionError]; the
    comparison of a bound with [None] is never reached. *)
Theorem lift_raises_iff (l : list Q) (m : Q) (e : exn) :
  lift l m = Raise e <->
  e = ZeroDivisionError /\ m == 0 /\ (2 <= length l)%nat.
Proof.
  assert (Z : m == 0 -> (2 <= length l)%nat ->
              lift l m = Raise ZeroDivisionError).
  { intros Hz Hl. destruct (arcs_long l Hl) as ([x y] & al & E).
    unfold lift. rewrite E. cbn [first_pass]. unfold arc_step.
    now rewrite (pymod_zero _ _ Hz). }
  split.
  - intro R. destruct (Qeq_dec m 0) as [Hz|Hn].
    + destruct (le_lt_dec 2 (length l)) as [Hl|Hs].
      * rewrite (Z Hz Hl) in R. injection R as <-. auto.
      * unfold lift in R. rewrite (arcs_short l Hs) in R. discriminate.
    + destruct (lift_total l m Hn) as [r E]. congruence.
  - intros (-> & Hz & Hl). now apply Z.
Qed.













(** X10.  [maxn] and [minn] are the maximum and the minimum of the values
    that are not [None]: the result is [None] only when both arguments are,
    otherwise it is one of the arguments and no argument lies beyond it. *)
Theorem maxn_minn_spec (a b : option Q) :
  (maxn a b = None <-> a = None /\ b = None) /\
  (minn a b = None <-> a = None /\ b = None) /\
  (forall r, maxn a b = Some r ->
     (a = Some r \/ b = Some r) /\
     (forall x, a = Some x -> x <= r) /\ (forall y, b = Some y -> y <= r)) /\
  (forall r, minn a b = Some r ->
     (a = Some r \/ b = Some r) /\
     (forall x, a = Some x -> r <= x) /\ (forall y, b = Some y -> r <= y)).
Proof.
  split; [|split; [|split]].
  - destruct a, b; simpl; split; try discriminate; try tauto;
      intros [? ?]; discriminate.
  - destruct a, b; simpl; split; try discriminate; try tauto;
      intros [? ?]; discriminate.
  - intros r E. destruct a as [x|], b as [y|]; simpl in E;
      try discriminate; injection E as <-.
    + destruct (pymax_cases x y) as [[-> H]|[-> H]];
        (split; [auto | split; intros ? Hq; inversion Hq; subst; lra]).
    + split; [auto | split; intros ? Hq; inversion Hq; subst; lra].
    + split; [auto | split; intros ? Hq; inversion Hq; subst; lra].
  - intros r E. destruct a as [x|], b as [y|]; simpl in E;
      try discriminate; injection E as <-.
    + destruct (pymin_cases x y) as [[-> H]|[-> H]];
        (split; [auto | split; intros ? Hq; inversion Hq; subst; lra]).
    + split; [auto | split; intros ? Hq; inversion Hq; subst; lra].
    + split; [auto | split; intros ? Hq; inversion Hq; subst; lra].
Qed.

(** X11.  After the first loop, the lower bound is the largest of the
    smaller ends of the violating arcs and the upper bound the smallest of
    their larger ends. *)
Theorem first_pass_bounds_extremal (l : list Q) (m : Q) (s : bounds) :
  0 < m ->
  first_pass m init (arcs l) = Return s ->
  (forall a, o0 s = Some a ->
     (exists x y, In (x, y) (arcs l) /\ violating m x y = true /\
                  a = pymin x y) /\
     (forall x y, In (x, y) (arcs l) -> violating m x y = true ->
                  pymin x y <= a)) /\
  (forall b, o1 s = Some b ->
     (exists x y, In (x, y) (arcs l) /\ violating m x y = true /\
                  b = pymax x y) /\
     (forall x y, In (x, y) (arcs l) -> violating m x y = true ->
                  b <= pymax x y)).
Proof.
  intros Hpos F. pose proof (positive_nonzero m Hpos) as Hm.
  destruct (first_pass_attained m Hm _ _ _ F) as [A0 A1].
  destruct (first_pass_covers m Hm _ _ _ F) as (_ & _ & C).
  split.
  - intros a E. split.
    + destruct (A0 a E) as [E'|(x & y & I & V & <-)]; [discriminate|].
      exists x, y. rewrite (interval_of_violating m x y V). auto.
    + intros x y I V. destruct (C x y I V) as [(a' & E' & L) _].
      rewrite (interval_of_violating m x y V) in L. cbn [fst] in L.
      congruence.
  - intros b E. split.
    + destruct (A1 b E) as [E'|(x & y & I & V & <-)]; [discriminate|].
      exists x, y. rewrite (interval_of_violating m x y V). auto.
    + intros x y I V. destruct (C x y I V) as [_ (b' & E' & L)].
      rewrite (interval_of_violating m x y V) in L. cbn [snd] in L.
      congruence.
Qed.

Lemma first_pass_bounds_extremal_witness :
  (forall a, Some 1 = Some a ->
     (exists x y, In (x, y) (arcs [350; 359; 1]) /\
                  violating 360 x y = true /\ a = pymin x y) /\
     (forall x y, In (x, y) (arcs [350; 359; 1]) ->
                  violating 360 x y = true -> pymin x y <= a)) /\
  (forall b, Some 359 = Some b ->
     (exists x y, In (x, y) (arcs [350; 359; 1]) /\
                  violating 360 x y = true /\ b = pymax x y) /\
     (forall x y, In (x, y) (arcs [350; 359; 1]) ->
                  violating 360 x y = true -> b <= pymax x y)).
Proof.
  apply (first_pass_bounds_extremal [350; 359; 1] 360
           (mkBounds (Some 1) (Some 359) [(350, 359)])).
  - reflexivity.
  - vm_compute. reflexivity.
Defined.

(** X16.  When two violating arcs have intervals that do not overlap in
    more than a point (the larger end of one is at most the smaller end of
    the other), no single threshold serves both and [lift] returns
    [None]. *)
Theorem disjoint_violating_no_cut (l : list Q) (m x1 y1 x2 y2 : Q) :
  0 < m ->
  In (x1, y1) (arcs l) -> violating m x1 y1 = true ->
  In (x2, y2) (arcs l) -> violating m x2 y2 = true ->
  pymax x1 y1 <= pymin x2 y2 ->
  lift l m = Return None.
Proof.
  intros Hpos I1 V1 I2 V2 D. pose proof (positive_nonzero m Hpos) as Hm.
  destruct (first_pass_total m (arcs l) init Hm) as [s F].
  destruct (first_pass_covers m Hm _ _ _ F) as (_ & _ & C).
  destruct (C x1 y1 I1 V1) as [_ (b & Eb & Lb)].
  destruct (C x2 y2 I2 V2) as [(a & Ea & La) _].
  rewrite (interval_of_violating m _ _ V1) in Lb.
  rewrite (interval_of_violating m _ _ V2) in La. cbn [fst snd] in *.
  unfold lift. rewrite F. cbn [bind]. unfold finish. rewrite Ea, Eb.
  assert (E : Qle_bool b a = true) by (apply Qle_bool_iff; lra).
  now rewrite E.
Qed.

Lemma disjoint_violating_no_cut_witness :
  lift [180; 0; 360; 180] 360 = Return None.
Proof.
  apply (disjoint_violating_no_cut [180; 0; 360; 180] 360 180 0 360 180).
  - reflexivity.
  - simpl. auto.
  - vm_compute. reflexivity.
  - simpl. auto.
  - vm_compute. reflexivity.
  - vm_compute. discriminate.
Defined.





(** ** Further properties of the adjustment of a path *)



(** X13.  The two axes do not interact: running the latitude block before
    the longitude block yields the same coordinates and the same flag as
    the order [process_kml] uses. *)
Theorem axes_commute (l : list Coordinates) :
  (st <- adjust Latitude (l, false) ;; adjust Longitude st)
  = process_path l.
Proof.
  destruct (process_path_cases l) as (r1 & r2 & L1 & L2 & ->).
  destruct (adjust_cases Latitude l false) as [[L2' ->]|(o2 & L2' & ->)];
    cbn [bind].
  - assert (E2 : Return r2 = Return None) by (rewrite <- L2; exact L2').
    injection E2 as ->.
    destruct (adjust_cases Longitude l false) as [[L1' ->]|(o1 & L1' & ->)].
    + assert (E1 : Return r1 = Return None) by (rewrite <- L1; exact L1').
      now injection E1 as ->.
    + assert (E1 : Return r1 = Return (Some o1))
        by (rewrite <- L1; exact L1').
      now injection E1 as ->.
  - assert (E2 : Return r2 = Return (Some o2))
      by (rewrite <- L2; exact L2').
    injection E2 as ->.
    destruct (adjust_cases Longitude (map (shift_coord Latitude o2) l) true)
      as [[L1' ->]|(o1 & L1' & ->)];
      rewrite (shift_coord_other Latitude Longitude) in L1' by discriminate.
    + assert (E1 : Return r1 = Return None) by (rewrite <- L1; exact L1').
      now injection E1 as ->.
    + assert (E1 : Return r1 = Return (Some o1))
        by (rewrite <- L1; exact L1').
      injection E1 as ->.
      f_equal. f_equal. rewrite !map_map. apply map_ext. intro c.
      symmetry. apply shift_coord_commute.
Qed.





(** ** Properties of the text layer *)

(** X17.  The pieces [process_kml] hands to [fromstring] are never empty
    and never contain a space. *)
Theorem tokens_spec (text t : str) :
  In t (tokens text) -> t <> [] /\ ~ In space t.
Proof.
  unfold tokens. intro I. apply filter_In in I. destruct I as [I L].
  split; [now apply nonempty_length | now apply (split_pieces space _ _ I)].
Qed.

Lemma tokens_spec_witness :
  lit "1,2,3" <> [] /\ ~ In space (lit "1,2,3").
Proof.
  apply (tokens_spec (lit "  1,2,3  4,5,6 ") (lit "1,2,3")).
  vm_compute. auto.
Defined.

(** X18.  Only the space separates: a text without a space, whatever
    other blanks (newlines, tabs) it holds between its tuples, gives one
    piece, the stripped text, or none when nothing is left of it. *)
Theorem tokens_without_space (text : str) :
  ~ In space text ->
  tokens text = match strip text with [] => [] | _ => [strip text] end.
Proof.
  intro H. unfold tokens. rewrite split_free.
  - now destruct (strip text).
  - intro I. apply H. now apply strip_incl.
Qed.

Lemma tokens_without_space_witness :
  tokens (lit "1,2,3" ++ [10%N] ++ lit "4,5,6" ++ [10%N])
  = [lit "1,2,3" ++ [10%N] ++ lit "4,5,6"].
Proof.
  apply (tokens_without_space (lit "1,2,3" ++ [10%N] ++ lit "4,5,6" ++ [10%N])).
  vm_compute. intuition discriminate.
Defined.

(** X19.  What was joined with spaces is split into the same pieces again:
    for pieces that are not empty and hold no blank,
    [tokens (' '.join(ts)) = ts]. *)
Theorem tokens_of_join (ts : list str) :
  (forall t, In t ts -> t <> [] /\ forall c, In c t -> isspace c = false) ->
  tokens (join [space] ts) = ts.
Proof. apply tokens_join. Qed.

Lemma tokens_of_join_witness :
  tokens (join [space] [lit "1,2,3"; lit "4,5,6"])
  = [lit "1,2,3"; lit "4,5,6"].
Proof.
  apply (tokens_of_join [lit "1,2,3"; lit "4,5,6"]).
  intros t [<-|[<-|[]]]; (split; [discriminate|]);
    intros c I; vm_compute in I;
    repeat (destruct I as [<-|I]; [reflexivity|]); destruct I.
Defined.

Section TextProperties.

Variable mpf : str -> outcome Q.
Variable show : Q -> str.

(** X20.  [fromstring] returns a coordinate exactly for a text of three
    fields separated by two commas, each of which [mpf] converts; the
    coordinate holds the three numbers in that order. *)
Theorem fromstring_succeeds_iff (s : str) (c : Coordinates) :
  fromstring mpf s = Done c <->
  exists f1 f2 f3,
    s = f1 ++ [comma] ++ f2 ++ [comma] ++ f3 /\
    ~ In comma f1 /\ ~ In comma f2 /\ ~ In comma f3 /\
    mpf f1 = Done (longitude c) /\ mpf f2 = Done (latitude c) /\
    mpf f3 = Done (z c).
Proof. apply fromstring_shape. Qed.

(** X21.  A text whose fields all convert but that has not exactly two
    commas (a tuple without altitude, say) makes [fromstring] raise
    [TypeError]. *)
Theorem fromstring_arity (s : str) :
  (forall f, In f (split comma s) -> exists v, mpf f = Done v) ->
  count_occ N.eq_dec s comma <> 2%nat ->
  fromstring mpf s = Failed (OfSolver TypeError).
Proof.
  intros H A. unfold fromstring.
  destruct (comprehension_total mpf (split comma s) H) as (fields & -> & L).
  cbn [obind]. rewrite split_length in L.
  destruct fields as [|lon [|lat [|alt [|? ?]]]]; try reflexivity.
  simpl in L. lia.
Qed.

(** X22.  [fromstring] undoes [tostring] on a coordinate whose three
    numbers print without blank or comma to a text that converts back to
    them. *)
Theorem fromstring_tostring (c : Coordinates) :
  coordinates_print_back mpf show c ->
  fromstring mpf (tostring show c) = Done c.
Proof. apply tostring_fromstring. Qed.

(** X23.  The text written for a changed path is read back as that path:
    when the text of an element parses to [l] and the path is changed to
    [l'], whose numbers print back, the new text parses to [l']. *)
Theorem rewritten_text_parses (text : str) (l l' : list Coordinates) :
  parse_path mpf text = Done l ->
  process_path l = Return (l', true) ->
  (forall c, In c l' -> coordinates_print_back mpf show c) ->
  exists text',
    process_text mpf show text = Done text' /\
    text' = join [space] (map (tostring show) l') /\
    parse_path mpf text' = Done l'.
Proof.
  intros P R H.
  destruct (process_text_cases mpf show text l P) as (l2 & ch & R2 & ->).
  rewrite R in R2. injection R2 as <- <-.
  eexists. split; [reflexivity|]. split; [reflexivity|].
  now apply reparse.
Qed.


(** X25.  The solver adds no failure: handling an element fails exactly
    when reading its coordinates fails, with the same exception. *)
Theorem process_text_fails_iff (text : str) (e : pyexn) :
  process_text mpf show text = Failed e <-> parse_path mpf text = Failed e.
Proof.
  destruct (parse_path mpf text) as [l|e'] eqn:P.
  - destruct (process_text_cases mpf show text l P) as (l2 & ch & _ & ->).
    split; discriminate.
  - unfold process_text. rewrite P. cbn [obind].
    split; intros [= ->]; reflexivity.
Qed.

End TextProperties.

Ltac prints_back_by_evaluation :=
  split;
  [ intros ch I; vm_compute in I;
    repeat (destruct I as [<-|I]; [split; [reflexivity | discriminate]|]);
    destruct I
  | vm_compute; reflexivity ].

Lemma fromstring_arity_witness :
  fromstring sample_mpf (lit "359,10") = Failed (OfSolver TypeError).
Proof.
  apply (fromstring_arity sample_mpf (lit "359,10")).
  - intros f I. vm_compute in I.
    destruct I as [<-|[<-|[]]]; eexists; vm_compute; reflexivity.
  - vm_compute. discriminate.
Defined.

Lemma fromstring_tostring_witness :
  fromstring sample_mpf (tostring sample_show (mkCoordinates 359 10 5))
  = Done (mkCoordinates 359 10 5).
Proof.
  apply (fromstring_tostring sample_mpf sample_show (mkCoordinates 359 10 5)).
  split; [|split]; prints_back_by_evaluation.
Defined.

Lemma rewritten_text_parses_witness :
  exists text',
    process_text sample_mpf sample_show (lit "359,10,5 1,11,6") = Done text' /\
    text' = join [space]
              (map (tostring sample_show)
                   [mkCoordinates 359 10 5; mkCoordinates 361 11 6]) /\
    parse_path sample_mpf text'
    = Done [mkCoordinates 359 10 5; mkCoordinates 361 11 6].
Proof.
  apply (rewritten_text_parses sample_mpf sample_show
           (lit "359,10,5 1,11,6")
           [mkCoordinates 359 10 5; mkCoordinates 1 11 6]).
  - vm_compute. reflexivity.
  - vm_compute. reflexivity.
  - intros c [<-|[<-|[]]]; (split; [|split]); prints_back_by_evaluation.
Defined.


(** ** Properties of the command line *)

Section MainProperties.

Variable process_kml : str -> outcome str.
Variable kmz_doc : str -> outcome str.

(** X26.  Whatever the arguments, and whether or not the run ends in an
    exception, the script writes to no file whose name does not end in
    [-lifted.kml]: every such file is afterwards as it was. *)
Theorem only_lifted_files_written (fs0 : files) (argv : list str) (n : str) :
  endswith n (lit "-lifted.kml") = false ->
  fs (fst (main process_kml kmz_doc fs0 argv)) n = fs0 n.
Proof.
  intro F. unfold main.
  now rewrite main_loop_lifted; [| intros name [=] | exact F].
Qed.

(** X27.  For a name ending in [.kmz] or [.kml] whose document is
    converted to [k], one iteration writes [k] to the name with its last
    four characters replaced by [-lifted.kml], which is seven longer and so
    never the name of the input; the input file is as it was. *)
Theorem step_writes_beside_input (w : world) (a k : str) :
  recognised a ->
  convert process_kml kmz_doc w a = Done (Some (lifted_name a), Some k) ->
  main_step process_kml kmz_doc w a
  = (mkWorld (write_file (fs w) (lifted_name a) k)
             (stdout w ++ [lit "Processing " ++ a ++ lit "..."]
                ++ [lit "  writing " ++ lifted_name a ++ lit "..."])
             (Some (lifted_name a)) (Some k), None) /\
  List.length (lifted_name a) = (List.length a + 7)%nat /\
  write_file (fs w) (lifted_name a) k a = fs w a.
Proof.
  intros R C. unfold main_step. rewrite C.
  pose proof (lifted_name_length a (recognised_length a R)) as L.
  split; [now rewrite <- app_assoc|]. split; [exact L|].
  apply write_file_other. intro E. rewrite <- E in L. lia.
Qed.

(** X28.  A first argument that ends neither in [.kmz] nor in [.kml] ends
    the run with [NameError] after the line [Processing ...]; no file is
    written and the other arguments are not looked at. *)
Theorem unrecognised_first_argument
        (fs0 : files) (a : str) (rest : list str) :
  endswith a (lit ".kmz") = false -> endswith a (lit ".kml") = false ->
  main process_kml kmz_doc fs0 (a :: rest)
  = (mkWorld fs0 [lit "Processing " ++ a ++ lit "..."] None None,
     Some NameError).
Proof.
  intros Z L. unfold main. cbn [main_loop]. unfold main_step, convert.
  now rewrite Z, L.
Qed.

(** X29.  After an argument that was converted, an argument that ends
    neither in [.kmz] nor in [.kml] raises nothing: the two variables still
    hold the name and the text of the previous iteration, and that file is
    written once more with that text. *)
Theorem unrecognised_after_success (fs0 : files) (a b k : str) :
  recognised a ->
  convert process_kml kmz_doc (mkWorld fs0 [] None None) a
  = Done (Some (lifted_name a), Some k) ->
  endswith b (lit ".kmz") = false -> endswith b (lit ".kml") = false ->
  exists w,
    main process_kml kmz_doc fs0 [a; b] = (w, None) /\
    (forall n, fs w n = write_file fs0 (lifted_name a) k n) /\
    stdout w = [lit "Processing " ++ a ++ lit "...";
                lit "  writing " ++ lifted_name a ++ lit "...";
                lit "Processing " ++ b ++ lit "...";
                lit "  writing " ++ lifted_name a ++ lit "..."] /\
    outfilename w = Some (lifted_name a) /\ outkml w = Some k.
Proof.
  intros R C Z L. unfold main. cbn [main_loop].
  unfold main_step at 1. rewrite C. cbn [fst snd].
  unfold main_step, convert. cbn [fs stdout outfilename outkml].
  rewrite Z, L. eexists. split; [reflexivity|].
  cbn [fs stdout outfilename outkml]. repeat split.
  intro n. unfold write_file. now destruct (str_eqb n (lifted_name a)).
Qed.

End MainProperties.

Lemma only_lifted_files_written_witness :
  fs (fst (main sample_process_kml sample_kmz_doc sample_files
             [lit "a.kml"; lit "b.txt"])) (lit "a.kml")
  = sample_files (lit "a.kml").
Proof.
  apply (only_lifted_files_written sample_process_kml sample_kmz_doc
           sample_files [lit "a.kml"; lit "b.txt"] (lit "a.kml")).
  vm_compute. reflexivity.
Defined.

Lemma step_writes_beside_input_witness :
  main_step sample_process_kml sample_kmz_doc
            (mkWorld sample_files [] None None) (lit "a.kml")
  = (mkWorld (write_file sample_files (lifted_name (lit "a.kml"))
                         (lit "lifted:<kml/>"))
             ([] ++ [lit "Processing " ++ lit "a.kml" ++ lit "..."]
                ++ [lit "  writing " ++ lifted_name (lit "a.kml")
                      ++ lit "..."])
             (Some (lifted_name (lit "a.kml"))) (Some (lit "lifted:<kml/>")),
     None) /\
  List.length (lifted_name (lit "a.kml")) = (List.length (lit "a.kml") + 7)%nat /\
  write_file sample_files (lifted_name (lit "a.kml")) (lit "lifted:<kml/>")
             (lit "a.kml")
  = sample_files (lit "a.kml").
Proof.
  apply (step_writes_beside_input sample_process_kml sample_kmz_doc
           (mkWorld sample_files [] None None) (lit "a.kml")
           (lit "lifted:<kml/>")).
  - right. vm_compute. reflexivity.
  - vm_compute. reflexivity.
Defined.

Lemma unrecognised_first_argument_witness :
  main sample_process_kml sample_kmz_doc sample_files
       [lit "b.txt"; lit "a.kml"]
  = (mkWorld sample_files [lit "Processing " ++ lit "b.txt" ++ lit "..."]
             None None, Some NameError).
Proof.
  apply (unrecognised_first_argument sample_process_kml sample_kmz_doc
           sample_files (lit "b.txt") [lit "a.kml"]);
    vm_compute; reflexivity.
Defined.

Lemma unrecognised_after_success_witness :
  exists w,
    main sample_process_kml sample_kmz_doc sample_files
         [lit "a.kml"; lit "b.txt"] = (w, None) /\
    (forall n, fs w n
               = write_file sample_files (lifted_name (lit "a.kml"))
                            (lit "lifted:<kml/>") n) /\
    stdout w = [lit "Processing " ++ lit "a.kml" ++ lit "...";
                lit "  writing " ++ lifted_name (lit "a.kml") ++ lit "...";
                lit "Processing " ++ lit "b.txt" ++ lit "...";
                lit "  writing " ++ lifted_name (lit "a.kml") ++ lit "..."] /\
    outfilename w = Some (lifted_name (lit "a.kml")) /\
    outkml w = Some (lit "lifted:<kml/>").
Proof.
  apply (unrecognised_after_success sample_process_kml sample_kmz_doc
           sample_files (lit "a.kml") (lit "b.txt") (lit "lifted:<kml/>")).
  - right. vm_compute. reflexivity.
  - vm_compute. reflexivity.
  - vm_compute. reflexivity.
  - vm_compute. reflexivity.
Defined.
